(** * random_fasta.py: a generator of random FASTQ reads

    A shallow embedding of [synthetic-test-data/random_fasta.py] and the
    properties of its output.

    The script parses two integers from the command line ([-reads], [-len]),
    computes the quality string once, and then prints [reads] records of four
    lines each: a random name, a random sequence, [+] and the quality string.

    Modelling choices:
    - Python integers are [Z]; strings are [string] (one [ascii] per
      character, the script only produces ASCII);
    - the script's effects (drawing from the process-wide random generator,
      writing to the standard streams, raising an exception) are threaded
      through a small state-and-exception monad [M] over a [World];
    - the random generator is not part of the script. Its state is a tape of
      integers together with the number of draws already made; a draw
      reduces the next tape entry into the requested range, which is the
      contract of [random.randrange] and [random.randint];
    - [argparse] is not part of the script either: the command line is the
      sequence of options and arguments that the library recognises for the
      parser the script configures;
    - a repetition count must fit the interpreter's index type: [s * n]
      raises [OverflowError] outside [[-2^63, 2^63)], as on a 64-bit build.
      Memory itself is unbounded: running out of it is outside the model. *)

From Stdlib Require Import ZArith List String Ascii Bool Lia.
Import ListNotations.

Local Open Scope string_scope.
Local Open Scope list_scope.
Local Open Scope Z_scope.

(** ** The execution monad *)

(** The exceptions the modelled operations can raise. *)
Inductive exn : Type :=
  | IndexError
  | ValueError
  | OverflowError.

Inductive result (A : Type) : Type :=
  | Ok (a : A)
  | Raise (e : exn).

Arguments Ok {A} a.
Arguments Raise {A} e.

(** The tape of the random generator: entry [k] feeds the draw number [k]. *)
Definition Tape : Type := nat -> Z.

Record World : Type := mkWorld {
  tape : Tape;
  drawn : nat;
  stdout : string;
  stderr : string
}.

Definition M (A : Type) : Type := World -> result A * World.

Definition ret {A} (a : A) : M A := fun w => (Ok a, w).

Definition raise {A} (e : exn) : M A := fun w => (Raise e, w).

Definition bind {A B} (c : M A) (k : A -> M B) : M B :=
  fun w =>
    match c w with
    | (Ok a, w') => k a w'
    | (Raise e, w') => (Raise e, w')
    end.

Declare Scope py_scope.
Delimit Scope py_scope with py.

Notation "x <- c ;; k" := (bind c (fun x => k))
  (at level 61, c at next level, right associativity) : py_scope.
Notation "c ;; k" := (bind c (fun _ => k))
  (at level 61, right associativity) : py_scope.

Local Open Scope py_scope.

(** [for x in xs: body]. *)
Fixpoint for_ {A} (xs : list A) (body : A -> M unit) : M unit :=
  match xs with
  | [] => ret tt
  | x :: xs' => body x ;; for_ xs' body
  end.

(** [[e for x in xs]]: the elements are evaluated from left to right. *)
Fixpoint comprehension {A B} (xs : list A) (e : A -> M B) : M (list B) :=
  match xs with
  | [] => ret []
  | x :: xs' => v <- e x ;; vs <- comprehension xs' e ;; ret (v :: vs)
  end.

(** ** The Python primitives the script uses *)

Definition newline : ascii := "010"%char.

(** [range(n)]: empty when [n <= 0]. *)
Definition range (n : Z) : list Z := map Z.of_nat (seq 0 (Z.to_nat n)).

(** [sys.maxsize], the largest index: [2^63 - 1]. *)
Definition sys_maxsize : Z := 9223372036854775807.

(** The integers that fit the index type. *)
Definition index_sized (n : Z) : Prop :=
  - sys_maxsize - 1 <= n <= sys_maxsize.

(** [s * n] on strings: the count is first converted to an index, which
    raises [OverflowError] when it does not fit; the result is the empty
    string when [n <= 0]. *)
Definition str_mul (s : string) (n : Z) : M string :=
  if (n <? - sys_maxsize - 1) || (sys_maxsize <? n) then raise OverflowError
  else ret (String.concat "" (repeat s (Z.to_nat n))).

(** [sep.join(xs)]. *)
Definition join (sep : string) (xs : list string) : string :=
  String.concat sep xs.

(** Subscripts count from the end when negative and raise [IndexError] out
    of range. *)
Definition normalize_index (i n : Z) : option nat :=
  let j := if i <? 0 then i + n else i in
  if (j <? 0) || (n <=? j) then None else Some (Z.to_nat j).

(** [s[i]] on a string: a string of one character. *)
Definition str_getitem (s : string) (i : Z) : M string :=
  match normalize_index i (Z.of_nat (String.length s)) with
  | Some k =>
      match String.get k s with
      | Some c => ret (String c EmptyString)
      | None => raise IndexError
      end
  | None => raise IndexError
  end.

(** [xs[i]] on a list. *)
Definition list_getitem {A} (xs : list A) (i : Z) : M A :=
  match normalize_index i (Z.of_nat (List.length xs)) with
  | Some k =>
      match nth_error xs k with
      | Some x => ret x
      | None => raise IndexError
      end
  | None => raise IndexError
  end.

(** [print(s)]: the string and a line break, on standard output. *)
Definition print (s : string) : M unit :=
  fun w =>
    (Ok tt,
     mkWorld (tape w) (drawn w)
             (stdout w ++ s ++ String newline EmptyString) (stderr w)).

(** [string.ascii_lowercase]. *)
Definition ascii_lowercase : string := "abcdefghijklmnopqrstuvwxyz".

(** *** The [random] module *)

(** One draw below [n], for [0 < n]. *)
Definition randbelow (n : Z) : M Z :=
  fun w =>
    (Ok (tape w (drawn w) mod n),
     mkWorld (tape w) (S (drawn w)) (stdout w) (stderr w)).

(** [random.randrange(stop)]: an integer of [[0, stop)]. *)
Definition randrange (stop : Z) : M Z :=
  if 0 <? stop then randbelow stop else raise ValueError.

(** [random.randint(a, b)]: an integer of [[a, b]], both ends included. *)
Definition randint (a b : Z) : M Z :=
  let width := b + 1 - a in
  if 0 <? width then (k <- randbelow width ;; ret (a + k))
  else raise ValueError.

(** ** The script *)

(** The parsed arguments, [args]. *)
Record Namespace : Type := mkNamespace {
  reads : Z;
  len : Z
}.

(** [log]: its arguments, separated by spaces, on standard error.
    The script defines it and never calls it. *)
Definition log (args : list string) : M unit :=
  fun w =>
    (Ok tt,
     mkWorld (tape w) (drawn w) (stdout w)
             (stderr w ++ join " " args ++ String newline EmptyString)).

Definition randomReadName : M string :=
  letters <- comprehension (range 12)
               (fun _ => k <- randint 0 25 ;; str_getitem ascii_lowercase k) ;;
  ret (join "" letters).

Definition bases : list string := ["A"; "T"; "G"; "C"].

(** The body of the loop, with [qual] computed by the caller. *)
Definition emit_read (args : Namespace) (qual : string) : M unit :=
  r <- randomReadName ;;
  let name := ("@" ++ r)%string in
  cs <- comprehension (range (len args))
          (fun _ => k <- randrange 4 ;; list_getitem bases k) ;;
  let seq := join "" cs in
  print name ;;
  print seq ;;
  print "+" ;;
  print qual.

(** Everything after [parse_args]: lines 19 to 29 of the script. *)
Definition generate (args : Namespace) : M unit :=
  qual <- str_mul "E" (len args) ;;
  for_ (range (reads args)) (fun _ => emit_read args qual).

(** ** The command line and the whole program *)

(** [argparse] is not part of the script either. What the script fixes is
    the parser's configuration (lines 8 to 10): the help option that every
    parser has by default, [-reads] (an [int], required) and [-len] (an
    [int], 75 by default), and no positional argument.

    The command line is modelled as [argparse] reads it with this
    configuration, a sequence of recognised arguments: how an option may be
    spelled on the command line is left to the library. *)

Inductive dest : Type :=
  | Reads
  | Len.

Inductive argument : Type :=
  | HelpFlag                               (* -h or --help *)
  | Opt (d : dest) (value : option string) (* the option with its argument,
                                              [None] when none follows *)
  | Stray (s : string)                     (* matches no option *)
  | Malformed (complaint : string).        (* an option spelled in a way the
                                              parser rejects *)

Inductive arg_error : Type :=
  | ExpectedOneArgument (d : dest)
  | InvalidIntValue (d : dest) (v : string)
  | RequiredMissing
  | UnrecognizedArguments (extras : list string)
  | Rejected (complaint : string).

Inductive parsed : Type :=
  | Parsed (args : Namespace)
  | ExitHelp
  | ExitError (e : arg_error).

(** What the process leaves behind. *)
Record Outcome : Type := mkOutcome {
  status : Z;
  out : string;
  err : string
}.

Definition nl : string := String newline EmptyString.

(** What the parser and the interpreter print depends on where the script
    runs: the name the program was started under, the usage line and the
    help text as [argparse] lays them out for this parser, from that name
    and the width of the terminal, and the report of an exception that
    nothing catches, which names the path of the script. *)
Record Host : Type := mkHost {
  prog : string;
  format_usage : string;
  format_help : string;
  traceback : exn -> string
}.

Definition dquote : string := String "034"%char EmptyString.

(** The script started as [random_fasta.py] on a terminal wide enough for
    the usage line. *)
Definition wide_terminal : Host :=
  let usage :=
    ("usage: random_fasta.py [-h] -reads READS [-len LEN]" ++ nl)%string in
  mkHost "random_fasta.py" usage
    (usage ++ nl ++
     "Generate some random fasta data" ++ nl ++ nl ++
     "options:" ++ nl ++
     "  -h, --help    show this help message and exit" ++ nl ++
     "  -reads READS  Number of reads" ++ nl ++
     "  -len LEN      Read length" ++ nl)
    (fun e =>
       ("Traceback (most recent call last):" ++ nl ++
        match e with
        | OverflowError =>
            "  File " ++ dquote ++ "random_fasta.py" ++ dquote ++
            ", line 19, in <module>" ++ nl ++
            "    qual = " ++ dquote ++ "E" ++ dquote ++ " * args.len" ++ nl ++
            "OverflowError: cannot fit 'int' into an index-sized integer"
        | IndexError => "IndexError: string index out of range"
        | ValueError => "ValueError: empty range for randrange()"
        end ++ nl)%string).

Definition option_name (d : dest) : string :=
  match d with
  | Reads => "-reads"
  | Len => "-len"
  end.

Definition message (e : arg_error) : string :=
  match e with
  | ExpectedOneArgument d =>
      "argument " ++ option_name d ++ ": expected one argument"
  | InvalidIntValue d v =>
      "argument " ++ option_name d ++ ": invalid int value: '" ++ v ++ "'"
  | RequiredMissing => "the following arguments are required: -reads"
  | UnrecognizedArguments extras =>
      "unrecognized arguments: " ++ join " " extras
  | Rejected complaint => complaint
  end.

Definition initial (t : Tape) : World := mkWorld t 0 "" "".

(** The help option: the help text on standard output, status 0. *)
Definition help_exit (host : Host) : Outcome :=
  mkOutcome 0 (format_help host) "".

(** [parser.error]: the usage line and the complaint on standard error,
    nothing on standard output, status 2. *)
Definition usage_error (host : Host) (e : arg_error) : Outcome :=
  mkOutcome 2 ""
    (format_usage host ++ prog host ++ ": error: " ++ message e ++ nl).

(** An exception that nothing catches: what was printed stays, the report
    goes to standard error, status 1. *)
Definition uncaught (host : Host) (e : exn) (w : World) : Outcome :=
  mkOutcome 1 (stdout w) (stderr w ++ traceback host e).

Section Program.

(** The conversion that [type=int] applies to an option's argument:
    Python's [int] on a string, [None] where it raises [ValueError]. *)
Variable int : string -> option Z.

(** Where the script runs. *)
Variable host : Host.

(** The arguments are taken from left to right; the help option ends the
    run where it stands, and so does the first error. A missing required
    option is reported at the end, before any stray argument is. *)
Fixpoint parse_known (cl : list argument) (r : option Z) (l : Z)
                     (extras : list string) : parsed :=
  match cl with
  | [] =>
      match r with
      | None => ExitError RequiredMissing
      | Some n =>
          match extras with
          | [] => Parsed (mkNamespace n l)
          | _ :: _ => ExitError (UnrecognizedArguments extras)
          end
      end
  | HelpFlag :: _ => ExitHelp
  | Opt d None :: _ => ExitError (ExpectedOneArgument d)
  | Opt d (Some v) :: rest =>
      match int v with
      | None => ExitError (InvalidIntValue d v)
      | Some n =>
          match d with
          | Reads => parse_known rest (Some n) l extras
          | Len => parse_known rest r n extras
          end
      end
  | Stray s :: rest => parse_known rest r l (extras ++ [s])
  | Malformed complaint :: _ => ExitError (Rejected complaint)
  end.

(** [parser.parse_args()]: [reads] has no default, [len] defaults to 75. *)
Definition parse_args (cl : list argument) : parsed :=
  parse_known cl None 75 [].

(** The script from top to bottom, on a command line and a tape. *)
Definition main (cl : list argument) (t : Tape) : Outcome :=
  match parse_args cl with
  | ExitHelp => help_exit host
  | ExitError e => usage_error host e
  | Parsed args =>
      match generate args (initial t) with
      | (Ok _, w) => mkOutcome 0 (stdout w) (stderr w)
      | (Raise e, w) => uncaught host e w
      end
  end.


(** The parser stops with an error at this argument, wherever it stands:
    an option without its argument, with an argument that is no integer, or
    spelled in a way the parser rejects. A stray argument does not stop it:
    it is reported at the end. *)
Definition stops_parser (a : argument) : bool :=
  match a with
  | Opt _ None => true
  | Opt _ (Some v) => match int v with None => true | Some _ => false end
  | Malformed _ => true
  | HelpFlag | Stray _ => false
  end.

(** A help option is met before any error: the command line holds a help
    option with nothing before it that stops the parser. *)
Definition help_met_first (cl : list argument) : Prop :=
  exists before after,
    cl = before ++ HelpFlag :: after /\ existsb stops_parser before = false.

End Program.




(** A reader of decimal numerals with an optional sign, to run [main] on
    concrete command lines. *)
Definition digit_of (c : ascii) : option Z :=
  let n := Z.of_nat (nat_of_ascii c) in
  if (48 <=? n) && (n <=? 57) then Some (n - 48) else None.

Fixpoint read_digits (s : string) (acc : Z) : option Z :=
  match s with
  | EmptyString => Some acc
  | String c s' =>
      match digit_of c with
      | Some d => read_digits s' (10 * acc + d)
      | None => None
      end
  end.

Definition read_decimal (s : string) : option Z :=
  match s with
  | EmptyString => None
  | String "-" (String _ _ as s') => option_map Z.opp (read_digits s' 0)
  | String "+" (String _ _ as s') => read_digits s' 0
  | _ => read_digits s 0
  end.

(** ** Reading the output *)

(** The lines of a text, each without its line break. *)
Fixpoint lines (s : string) : list string :=
  match s with
  | EmptyString => []
  | String c s' =>
      if Ascii.eqb c newline then EmptyString :: lines s'
      else
        match lines s' with
        | [] => [String c EmptyString]
        | l :: ls => String c l :: ls
        end
  end.

(** The text made of the given lines, each ended by a line break. *)
Fixpoint unlines (ls : list string) : string :=
  match ls with
  | [] => EmptyString
  | l :: ls' => l ++ nl ++ unlines ls'
  end.

Definition run (args : Namespace) (t : Tape) : result unit * World :=
  generate args (initial t).

Definition output (args : Namespace) (t : Tape) : string :=
  stdout (snd (run args t)).

(** Line [k] of record [i] of the output, [k] from 0 to 3. *)
Definition record_line (args : Namespace) (t : Tape) (i k : nat) : string :=
  nth (4 * i + k) (lines (output args t)) EmptyString.

Definition is_lower (c : ascii) : bool :=
  let n := nat_of_ascii c in (97 <=? n)%nat && (n <=? 122)%nat.

Definition is_base (c : ascii) : bool :=
  existsb (Ascii.eqb c) ["A"; "T"; "G"; "C"]%char.

Definition all_chars (p : ascii -> bool) (s : string) : bool :=
  forallb p (list_ascii_of_string s).

(** The pattern [@[a-z]{12}]. *)
Definition matches_name (s : string) : bool :=
  match s with
  | String "@" r => (String.length r =? 12)%nat && all_chars is_lower r
  | _ => false
  end.

(** [n] times the character [c]. *)
Definition repeated (c : ascii) (n : nat) : string :=
  string_of_list_ascii (repeat c n).

(** ** What the generator prints, read off the tape *)

Definition char_at (s : string) (k : nat) : ascii :=
  match String.get k s with
  | Some c => c
  | None => " "%char
  end.

(** The letter a draw [z] selects in [randomReadName]. *)
Definition lower_char (z : Z) : ascii :=
  char_at ascii_lowercase (Z.to_nat (z mod 26)).

Definition letter (z : Z) : string := String (lower_char z) EmptyString.

(** The base a draw [z] selects in the loop. *)
Definition base (z : Z) : string :=
  nth (Z.to_nat (z mod 4)) bases EmptyString.

Definition base_char (z : Z) : ascii := char_at "ATGC" (Z.to_nat (z mod 4)).

(** The name built from the twelve draws that start at position [p]. *)
Definition name_at (t : Tape) (p : nat) : string :=
  ("@" ++ join "" (map (fun k => letter (t k)) (seq p 12)))%string.

(** The sequence built from the [n] draws that start at position [p]. *)
Definition seq_at (t : Tape) (p n : nat) : string :=
  join "" (map (fun k => base (t k)) (seq p n)).

(** The four lines of the record whose draws start at position [p]. *)
Definition record_at (t : Tape) (n : nat) (p : nat) : list string :=
  [name_at t p; seq_at t (p + 12) n; "+"; repeated "E" n].

(** The lines of [count] records of length [n], drawn from position [p]. *)
Definition records_from (t : Tape) (n : nat) (p count : nat) : list string :=
  flat_map (fun i => record_at t n (p + i * (12 + n))) (seq 0 count).

(** The tape that starts with the given draws. *)
Definition tape_of (ds : list Z) : Tape := fun k => nth k ds 0.

(** ** The variant without the precomputed quality string *)



(** The position of a lowercase letter in the alphabet. *)
Definition letter_index (c : ascii) : Z := Z.of_nat (nat_of_ascii c) - 97.

(** The world after [n] more draws, and after [s] more on standard output. *)
Definition advance (n : nat) (w : World) : World :=
  mkWorld (tape w) (n + drawn w) (stdout w) (stderr w).

Definition emit (s : string) (w : World) : World :=
  mkWorld (tape w) (drawn w) (stdout w ++ s) (stderr w).

Definition no_newline (s : string) : bool :=
  all_chars (fun c => negb (Ascii.eqb c newline)) s.

(** ** Further readings of the command line and of the output *)

(** The command line holds [-len]. *)
Definition gives_len (cl : list argument) : bool :=
  existsb (fun a => match a with Opt Len _ => true | _ => false end) cl.

(** The command line holds something the parser cannot accept: an argument
    that matches no option, an option without its argument, or an option
    spelled in a way the parser rejects. *)
Definition has_defect (cl : list argument) : bool :=
  existsb (fun a => match a with
                    | Stray _ | Malformed _ | Opt _ None => true
                    | _ => false
                    end) cl.

(** The characters a record can hold. *)
Definition is_fastq_char (c : ascii) : bool :=
  Ascii.eqb c newline || Ascii.eqb c "@" || Ascii.eqb c "+" || Ascii.eqb c "E"
  || is_lower c || is_base c.

(** The position of a base in [bases]. *)
Definition base_index (c : ascii) : Z :=
  if Ascii.eqb c "A" then 0
  else if Ascii.eqb c "T" then 1
  else if Ascii.eqb c "G" then 2
  else 3.

(** * Properties *)

(** ** Strings and lines *)

Lemma append_nil_r (s : string) : (s ++ "")%string = s.
Proof. induction s as [|c s IH]; simpl; [reflexivity | now rewrite IH]. Qed.

Lemma append_assoc (a b c : string) :
  ((a ++ b) ++ c)%string = (a ++ (b ++ c))%string.
Proof. induction a as [|x a IH]; simpl; [reflexivity | now rewrite IH]. Qed.

Lemma list_ascii_of_string_app (a b : string) :
  list_ascii_of_string (a ++ b) = list_ascii_of_string a ++ list_ascii_of_string b.
Proof. induction a as [|x a IH]; simpl; [reflexivity | now rewrite IH]. Qed.

Lemma length_list_ascii (s : string) :
  List.length (list_ascii_of_string s) = String.length s.
Proof. induction s as [|c s IH]; simpl; [reflexivity | now rewrite IH]. Qed.

(** Joining one-character strings spells out their characters. *)
Lemma join_singletons {A} (f : A -> ascii) (xs : list A) :
  join "" (map (fun x => String (f x) EmptyString) xs)
  = string_of_list_ascii (map f xs).
Proof.
  unfold join. induction xs as [|x xs IH]; [reflexivity|].
  destruct xs as [|y xs]; [reflexivity|].
  change (String (f x) (String.concat "" (map (fun x => String (f x) EmptyString) (y :: xs)))
          = String (f x) (string_of_list_ascii (map f (y :: xs)))).
  now rewrite IH.
Qed.

Lemma concat_repeat_char (c : ascii) (k : nat) :
  String.concat "" (repeat (String c EmptyString) k) = repeated c k.
Proof.
  unfold repeated.
  induction k as [|k IH]; [reflexivity|].
  destruct k as [|k]; [reflexivity|].
  change (String c (String.concat "" (repeat (String c EmptyString) (S k)))
          = String c (string_of_list_ascii (repeat c (S k)))).
  now rewrite IH.
Qed.

Lemma index_sized_dec (n : Z) : {index_sized n} + {~ index_sized n}.
Proof.
  unfold index_sized.
  destruct (Z_le_dec (- sys_maxsize - 1) n), (Z_le_dec n sys_maxsize);
    [left | right | right | right]; lia.
Qed.

(** A count that fits the index type gives the repeated string. *)
Lemma str_mul_repeated (c : ascii) (n : Z) (w : World) :
  index_sized n ->
  str_mul (String c EmptyString) n w = (Ok (repeated c (Z.to_nat n)), w).
Proof.
  unfold index_sized, str_mul. intros H.
  destruct (Z.ltb_spec n (- sys_maxsize - 1)); [lia|].
  destruct (Z.ltb_spec sys_maxsize n); [lia|].
  cbn [orb]. unfold ret. now rewrite concat_repeat_char.
Qed.

(** A count that does not fit raises [OverflowError], whatever the string. *)
Lemma str_mul_overflow (s : string) (n : Z) (w : World) :
  ~ index_sized n -> str_mul s n w = (Raise OverflowError, w).
Proof.
  unfold index_sized, str_mul. intros H.
  destruct (Z.ltb_spec n (- sys_maxsize - 1)); [reflexivity|].
  destruct (Z.ltb_spec sys_maxsize n); [reflexivity | lia].
Qed.

Lemma unlines_app (a b : list string) :
  unlines (a ++ b) = (unlines a ++ unlines b)%string.
Proof.
  induction a as [|l a IH]; simpl; [reflexivity|].
  now rewrite IH, !append_assoc.
Qed.

Lemma lines_line (l rest : string) :
  no_newline l = true ->
  lines (l ++ nl ++ rest) = l :: lines rest.
Proof.
  unfold no_newline, all_chars.
  induction l as [|c l IH]; intros H.
  - reflexivity.
  - cbn [list_ascii_of_string forallb] in H.
    apply andb_prop in H as [Hc Hl].
    cbn [append lines].
    destruct (Ascii.eqb c newline); [discriminate|].
    now rewrite (IH Hl).
Qed.

(** Splitting into lines undoes [unlines] when no line holds a line break. *)
Lemma lines_unlines (ls : list string) :
  forallb no_newline ls = true -> lines (unlines ls) = ls.
Proof.
  induction ls as [|l ls IH]; intros H; [reflexivity|].
  cbn [forallb] in H. apply andb_prop in H as [Hl Hls].
  cbn [unlines]. now rewrite (lines_line _ _ Hl), (IH Hls).
Qed.

(** ** Subscripts and draws *)

Lemma get_char_at (s : string) (k : nat) :
  (k < String.length s)%nat -> String.get k s = Some (char_at s k).
Proof.
  revert k. induction s as [|c s IH]; simpl; intros k H; [lia|].
  destruct k as [|k]; [reflexivity|].
  specialize (IH k ltac:(lia)). unfold char_at in *. simpl.
  destruct (String.get k s); [reflexivity | discriminate].
Qed.

Lemma normalize_index_in_range (i n : Z) :
  0 <= i < n -> normalize_index i n = Some (Z.to_nat i).
Proof.
  intros H. unfold normalize_index.
  destruct (Z.ltb_spec i 0); [lia|].
  destruct (Z.ltb_spec i 0); [lia|].
  destruct (Z.leb_spec n i); [lia | reflexivity].
Qed.

Lemma str_getitem_in_range (s : string) (i : Z) (w : World) :
  0 <= i < Z.of_nat (String.length s) ->
  str_getitem s i w = (Ok (String (char_at s (Z.to_nat i)) EmptyString), w).
Proof.
  intros H. unfold str_getitem.
  rewrite (normalize_index_in_range _ _ H), get_char_at by lia.
  reflexivity.
Qed.

Lemma list_getitem_in_range {A} (xs : list A) (d : A) (i : Z) (w : World) :
  0 <= i < Z.of_nat (List.length xs) ->
  list_getitem xs i w = (Ok (nth (Z.to_nat i) xs d), w).
Proof.
  intros H. unfold list_getitem.
  rewrite (normalize_index_in_range _ _ H).
  rewrite (nth_error_nth' xs d) by lia.
  reflexivity.
Qed.

(** One letter of a name costs one draw and cannot fail. *)
Lemma draw_letter (w : World) :
  (k <- randint 0 25 ;; str_getitem ascii_lowercase k) w
  = (Ok (letter (tape w (drawn w))), advance 1 w).
Proof.
  unfold randint. change (25 + 1 - 0) with 26. cbv zeta.
  change (0 <? 26) with true. cbv iota.
  unfold bind, randbelow, ret. rewrite Z.add_0_l.
  pose proof (Z.mod_pos_bound (tape w (drawn w)) 26 eq_refl) as Hb.
  rewrite str_getitem_in_range by (cbn; lia).
  reflexivity.
Qed.

(** One base of a sequence costs one draw and cannot fail. *)
Lemma draw_base (w : World) :
  (k <- randrange 4 ;; list_getitem bases k) w
  = (Ok (base (tape w (drawn w))), advance 1 w).
Proof.
  unfold randrange. change (0 <? 4) with true. cbv iota.
  unfold bind, randbelow.
  pose proof (Z.mod_pos_bound (tape w (drawn w)) 4 eq_refl) as Hb.
  rewrite (list_getitem_in_range bases EmptyString) by (cbn; lia).
  reflexivity.
Qed.

Lemma advance_advance (n m : nat) (w : World) :
  advance n (advance m w) = advance (n + m) w.
Proof. unfold advance; simpl. f_equal. lia. Qed.

(** A comprehension whose element costs one draw reads a block of the tape. *)
Lemma comprehension_draws {A B} (g : Z -> B) (e : A -> M B) :
  (forall x w, e x w = (Ok (g (tape w (drawn w))), advance 1 w)) ->
  forall xs w,
    comprehension xs e w
    = (Ok (map (fun k => g (tape w k)) (seq (drawn w) (List.length xs))),
       advance (List.length xs) w).
Proof.
  intros He. induction xs as [|x xs IH]; intros w.
  - destruct w; reflexivity.
  - cbn [comprehension List.length seq map]. unfold bind at 1.
    rewrite He. unfold bind at 1. rewrite IH. unfold ret.
    rewrite advance_advance. cbn [advance tape drawn Nat.add].
    repeat f_equal. lia.
Qed.

Lemma length_range (n : Z) : List.length (range n) = Z.to_nat n.
Proof. unfold range. now rewrite length_map, length_seq. Qed.

Lemma randomReadName_spec (w : World) :
  randomReadName w
  = (Ok (join "" (map (fun k => letter (tape w k)) (seq (drawn w) 12))),
     advance 12 w).
Proof.
  unfold randomReadName, bind at 1.
  rewrite (comprehension_draws letter) by (intros; apply draw_letter).
  reflexivity.
Qed.

(** One iteration of the loop: twelve draws for the name, [len] for the
    sequence, and four lines on standard output. *)
Lemma emit_read_spec (args : Namespace) (qual : string) (w : World) :
  emit_read args qual w
  = (Ok tt,
     emit (unlines [name_at (tape w) (drawn w);
                    seq_at (tape w) (drawn w + 12) (Z.to_nat (len args));
                    "+"; qual])
          (advance (12 + Z.to_nat (len args)) w)).
Proof.
  unfold emit_read, bind at 1. rewrite randomReadName_spec.
  unfold bind at 1.
  rewrite (comprehension_draws base) by (intros; apply draw_base).
  rewrite length_range.
  unfold bind, print, emit, advance, name_at, seq_at, unlines, nl.
  cbn [tape drawn stdout stderr].
  rewrite !append_assoc, append_nil_r.
  rewrite (Nat.add_comm 12 (drawn w)).
  replace (Z.to_nat (len args) + (drawn w + 12))%nat
    with (drawn w + 12 + Z.to_nat (len args))%nat by lia.
  replace (12 + Z.to_nat (len args) + drawn w)%nat
    with (drawn w + 12 + Z.to_nat (len args))%nat by lia.
  reflexivity.
Qed.

(** ** The loop *)

Lemma records_from_S (t : Tape) (n p count : nat) :
  records_from t n p (S count)
  = record_at t n p ++ records_from t n (p + (12 + n)) count.
Proof.
  unfold records_from. cbn [seq flat_map].
  rewrite Nat.mul_0_l, Nat.add_0_r. f_equal.
  rewrite <- seq_shift, !flat_map_concat_map, map_map. f_equal.
  apply map_ext. intros i. f_equal. lia.
Qed.

Lemma emit_nothing (w : World) : emit "" (advance 0 w) = w.
Proof. destruct w; unfold emit, advance; simpl. now rewrite append_nil_r. Qed.

Lemma emit_emit (a b : string) (n m : nat) (w : World) :
  emit b (advance m (emit a (advance n w))) = emit (a ++ b) (advance (n + m) w).
Proof.
  unfold emit, advance; simpl. rewrite append_assoc. f_equal. lia.
Qed.

(** The loop over any list of indices: one record per index, nothing else. *)
Lemma loop_spec (args : Namespace) (xs : list Z) (w : World) :
  for_ xs (fun _ => emit_read args (repeated "E" (Z.to_nat (len args)))) w
  = (Ok tt,
     emit (unlines (records_from (tape w) (Z.to_nat (len args)) (drawn w)
                                 (List.length xs)))
          (advance (List.length xs * (12 + Z.to_nat (len args))) w)).
Proof.
  revert w. induction xs as [|x xs IH]; intros w.
  - cbn. now rewrite emit_nothing.
  - cbn [for_ List.length]. unfold bind. rewrite emit_read_spec, IH.
    rewrite emit_emit, records_from_S, unlines_app.
    cbn [tape drawn emit advance].
    replace (12 + Z.to_nat (len args) + drawn w)%nat
      with (drawn w + (12 + Z.to_nat (len args)))%nat by lia.
    reflexivity.
Qed.

(** With a length that fits the index type, the generator runs to
    completion from any world: it makes [reads * (12 + len)] draws and
    appends the records to standard output. *)
Lemma generate_spec (args : Namespace) (w : World) :
  index_sized (len args) ->
  generate args w
  = (Ok tt,
     emit (unlines (records_from (tape w) (Z.to_nat (len args)) (drawn w)
                                 (Z.to_nat (reads args))))
          (advance (Z.to_nat (reads args) * (12 + Z.to_nat (len args))) w)).
Proof.
  intros Hfit. unfold generate, bind at 1.
  rewrite (str_mul_repeated "E" _ _ Hfit), loop_spec, length_range.
  reflexivity.
Qed.

(** With a length that does not fit, line 19 raises before the loop: nothing
    is drawn and nothing is printed, whatever [reads] is. *)
Lemma generate_overflow (args : Namespace) (w : World) :
  ~ index_sized (len args) ->
  generate args w = (Raise OverflowError, w).
Proof.
  intros Hfit. unfold generate, bind.
  now rewrite (str_mul_overflow _ _ _ Hfit).
Qed.

Lemma output_spec (args : Namespace) (t : Tape) :
  index_sized (len args) ->
  output args t
  = unlines (records_from t (Z.to_nat (len args)) 0 (Z.to_nat (reads args))).
Proof. intros H. unfold output, run. now rewrite generate_spec. Qed.

Lemma output_overflow (args : Namespace) (t : Tape) :
  ~ index_sized (len args) -> output args t = "".
Proof. intros H. unfold output, run. now rewrite generate_overflow. Qed.

(** ** The characters of a record *)

Lemma all_chars_of_list (p : ascii -> bool) (cs : list ascii) :
  all_chars p (string_of_list_ascii cs) = forallb p cs.
Proof. unfold all_chars. now rewrite list_ascii_of_string_of_list_ascii. Qed.

Lemma forallb_map_true {A B} (p : B -> bool) (f : A -> B) (xs : list A) :
  (forall x, p (f x) = true) -> forallb p (map f xs) = true.
Proof.
  intros H. induction xs as [|x xs IH]; simpl; [reflexivity|].
  now rewrite H, IH.
Qed.

Lemma length_of_list (cs : list ascii) :
  String.length (string_of_list_ascii cs) = List.length cs.
Proof. induction cs as [|c cs IH]; simpl; [reflexivity | now rewrite IH]. Qed.

Lemma lower_char_cases (p : ascii -> bool) :
  forallb p (list_ascii_of_string ascii_lowercase) = true ->
  forall z, p (lower_char z) = true.
Proof.
  intros H z. unfold lower_char.
  pose proof (Z.mod_pos_bound z 26 eq_refl) as Hb.
  assert (Hk : (Z.to_nat (z mod 26) < 26)%nat) by lia.
  revert Hk. generalize (Z.to_nat (z mod 26)) as k. intros k Hk.
  cbn in H.
  do 26 (destruct k as [|k];
         [cbn; repeat (apply andb_prop in H as [? H]); assumption|]).
  lia.
Qed.

Lemma base_char_cases (p : ascii -> bool) :
  forallb p (list_ascii_of_string "ATGC") = true ->
  forall z, p (base_char z) = true.
Proof.
  intros H z. unfold base_char.
  pose proof (Z.mod_pos_bound z 4 eq_refl) as Hb.
  assert (Hk : (Z.to_nat (z mod 4) < 4)%nat) by lia.
  revert Hk. generalize (Z.to_nat (z mod 4)) as k. intros k Hk.
  cbn in H.
  do 4 (destruct k as [|k];
        [cbn; repeat (apply andb_prop in H as [? H]); assumption|]).
  lia.
Qed.

Lemma base_is_base_char (z : Z) : base z = String (base_char z) EmptyString.
Proof.
  unfold base, base_char.
  pose proof (Z.mod_pos_bound z 4 eq_refl) as Hb.
  assert (Hk : (Z.to_nat (z mod 4) < 4)%nat) by lia.
  revert Hk. generalize (Z.to_nat (z mod 4)) as k. intros k Hk.
  do 4 (destruct k as [|k]; [reflexivity|]). lia.
Qed.

Lemma name_at_chars (t : Tape) (p : nat) :
  name_at t p
  = String "@" (string_of_list_ascii (map (fun k => lower_char (t k)) (seq p 12))).
Proof.
  unfold name_at, letter.
  now rewrite (join_singletons (fun k => lower_char (t k))).
Qed.

Lemma seq_at_chars (t : Tape) (p n : nat) :
  seq_at t p n = string_of_list_ascii (map (fun k => base_char (t k)) (seq p n)).
Proof.
  unfold seq_at. rewrite <- (join_singletons (fun k => base_char (t k))).
  f_equal. apply map_ext. intros k. apply base_is_base_char.
Qed.

Lemma name_at_matches (t : Tape) (p : nat) : matches_name (name_at t p) = true.
Proof.
  rewrite name_at_chars. cbn [matches_name].
  rewrite length_of_list, length_map, length_seq, all_chars_of_list.
  rewrite forallb_map_true; [reflexivity|].
  intros k. now apply lower_char_cases.
Qed.

Lemma name_at_no_newline (t : Tape) (p : nat) : no_newline (name_at t p) = true.
Proof.
  rewrite name_at_chars. unfold no_newline, all_chars.
  cbn [list_ascii_of_string forallb].
  rewrite list_ascii_of_string_of_list_ascii, forallb_map_true; [reflexivity|].
  intros k. now apply (lower_char_cases (fun c => negb (Ascii.eqb c newline))).
Qed.

Lemma seq_at_no_newline (t : Tape) (p n : nat) : no_newline (seq_at t p n) = true.
Proof.
  rewrite seq_at_chars. unfold no_newline.
  rewrite all_chars_of_list. apply forallb_map_true.
  intros k. now apply (base_char_cases (fun c => negb (Ascii.eqb c newline))).
Qed.

Lemma repeated_E_no_newline (n : nat) : no_newline (repeated "E" n) = true.
Proof.
  unfold no_newline, repeated. rewrite all_chars_of_list.
  induction n as [|n IH]; [reflexivity | exact IH].
Qed.

Lemma records_no_newline (t : Tape) (n count p : nat) :
  forallb no_newline (records_from t n p count) = true.
Proof.
  revert p. induction count as [|count IH]; intros p; [reflexivity|].
  rewrite records_from_S, forallb_app, IH.
  cbn [record_at forallb].
  now rewrite name_at_no_newline, seq_at_no_newline, repeated_E_no_newline.
Qed.

(** The lines of the output are the lines of the records, in order. *)
Lemma lines_output (args : Namespace) (t : Tape) :
  index_sized (len args) ->
  lines (output args t)
  = records_from t (Z.to_nat (len args)) 0 (Z.to_nat (reads args)).
Proof.
  intros H. rewrite output_spec by exact H.
  apply lines_unlines, records_no_newline.
Qed.


Lemma nth_records_from (t : Tape) (n count p i k : nat) :
  (i < count)%nat -> (k < 4)%nat ->
  nth (4 * i + k) (records_from t n p count) EmptyString
  = nth k (record_at t n (p + i * (12 + n))) EmptyString.
Proof.
  revert p i. induction count as [|count IH]; intros p i Hi Hk; [lia|].
  rewrite records_from_S. destruct i as [|i].
  - rewrite app_nth1 by (cbn [record_at List.length]; lia).
    now rewrite Nat.mul_0_r, Nat.mul_0_l, Nat.add_0_l, Nat.add_0_r.
  - rewrite app_nth2 by (cbn [record_at List.length]; lia).
    replace (4 * S i + k - List.length (record_at t n p))%nat
      with (4 * i + k)%nat by (cbn [record_at List.length]; lia).
    rewrite IH by lia. do 2 f_equal. lia.
Qed.

(** Line [k] of record [i] is line [k] of the record drawn from position
    [i * (12 + len)] of the tape. *)
Lemma record_line_spec (args : Namespace) (t : Tape) (i k : nat) :
  index_sized (len args) ->
  (i < Z.to_nat (reads args))%nat -> (k < 4)%nat ->
  record_line args t i k
  = nth k (record_at t (Z.to_nat (len args)) (i * (12 + Z.to_nat (len args))))
        EmptyString.
Proof.
  intros Hfit Hi Hk. unfold record_line.
  now rewrite lines_output, nth_records_from.
Qed.

(** Where line 19 raises there is no record: every line read is empty. *)
Lemma record_line_overflow (args : Namespace) (t : Tape) (i k : nat) :
  ~ index_sized (len args) -> record_line args t i k = "".
Proof.
  intros H. unfold record_line. rewrite (output_overflow _ _ H).
  now destruct (4 * i + k)%nat.
Qed.

(** ** The claims on the output *)

(** Goals [index_sized n] that follow from bounds at hand. *)
Ltac fits := unfold index_sized, sys_maxsize in *; cbn in *; lia.




(** *** Names *)

Lemma lower_char_letter_index (c : ascii) :
  is_lower c = true -> lower_char (letter_index c) = c.
Proof.
  destruct c as [[] [] [] [] [] [] [] []]; intros H;
    try discriminate H; vm_compute; reflexivity.
Qed.

Lemma letter_index_lower_char (z : Z) :
  0 <= z < 26 -> letter_index (lower_char z) = z.
Proof.
  intros Hz. unfold lower_char. rewrite Z.mod_small by lia.
  rewrite <- (Z2Nat.id z) at 2 by lia.
  assert (Hk : (Z.to_nat z < 26)%nat) by lia.
  revert Hk. generalize (Z.to_nat z) as k. intros k Hk.
  do 26 (destruct k as [|k]; [reflexivity|]). lia.
Qed.

Lemma map_nth_seq {A} (d : A) (xs : list A) :
  map (fun k => nth k xs d) (seq 0 (List.length xs)) = xs.
Proof.
  induction xs as [|x xs IH]; [reflexivity|].
  cbn [List.length seq map nth]. f_equal.
  rewrite <- seq_shift, map_map. exact IH.
Qed.

(** The name drawn from a tape that starts with twelve given draws. *)
Lemma randomReadName_of_draws (ds : list Z) :
  List.length ds = 12%nat ->
  fst (randomReadName (initial (tape_of ds)))
  = Ok (string_of_list_ascii (map lower_char ds)).
Proof.
  intros Hlen. rewrite randomReadName_spec. cbn [fst initial tape drawn].
  unfold letter. rewrite (join_singletons (fun k => lower_char (tape_of ds k))).
  do 2 f_equal. unfold tape_of.
  rewrite <- Hlen, <- (map_map (fun k => nth k ds 0) lower_char).
  now rewrite map_nth_seq.
Qed.

(** C2. The name line of every record is [@] followed by twelve lowercase
    letters (records are printed when [len] fits the index type). It is built from twelve consecutive entries of the tape, one per
    letter, and twelve draws of [[0, 25]] and twelve-letter lowercase words
    correspond one to one: letters are as independent and as uniform as the
    draws of [random.randint] are. *)
Theorem name_line_is_at_and_twelve_letters
    (args : Namespace) (t : Tape) (i : nat) :
  index_sized (len args) ->
  (i < Z.to_nat (reads args))%nat ->
  matches_name (record_line args t i 0) = true
  /\ record_line args t i 0 = name_at t (i * (12 + Z.to_nat (len args)))
  /\ (forall word : string,
        String.length word = 12%nat -> all_chars is_lower word = true ->
        exists! ds : list Z,
          List.length ds = 12%nat
          /\ Forall (fun d => 0 <= d < 26) ds
          /\ fst (randomReadName (initial (tape_of ds))) = Ok word).
Proof.
  intros Hfit Hi. rewrite record_line_spec by (exact Hfit || lia).
  cbn [nth record_at].
  split; [apply name_at_matches | split; [reflexivity|]].
  intros word Hlen Hlow.
  exists (map letter_index (list_ascii_of_string word)).
  assert (Hback : map lower_char (map letter_index (list_ascii_of_string word))
                  = list_ascii_of_string word).
  { unfold all_chars in Hlow. rewrite forallb_forall in Hlow.
    rewrite map_map.
    transitivity (map (fun c => c) (list_ascii_of_string word));
      [|apply map_id].
    apply map_ext_in. intros c Hc.
    now apply lower_char_letter_index, Hlow. }
  split.
  - split; [now rewrite length_map, length_list_ascii|]. split.
    + apply Forall_forall. intros d Hd.
      apply in_map_iff in Hd as [c [<- Hc]].
      unfold all_chars in Hlow. rewrite forallb_forall in Hlow.
      specialize (Hlow c Hc). unfold is_lower in Hlow.
      apply andb_prop in Hlow as [H1 H2].
      apply Nat.leb_le in H1, H2. unfold letter_index. lia.
    + rewrite randomReadName_of_draws
        by now rewrite length_map, length_list_ascii.
      now rewrite Hback, string_of_list_ascii_of_string.
  - intros ds [Hds [Hrange Hname]].
    rewrite (randomReadName_of_draws ds Hds) in Hname.
    injection Hname as Hname.
    rewrite <- Hname, list_ascii_of_string_of_list_ascii, map_map.
    transitivity (map (fun d => d) ds); [|apply map_id].
    apply map_ext_in. intros d Hd.
    rewrite Forall_forall in Hrange.
    now apply letter_index_lower_char, Hrange.
Qed.

Lemma name_line_is_at_and_twelve_letters_witness :
  let args := mkNamespace 2 4 in
  let t : Tape := fun k => Z.of_nat k * 7 in
  index_sized (len args) /\ (1 < Z.to_nat (reads args))%nat
  /\ matches_name (record_line args t 1 0) = true.
Proof.
  intros args t.
  assert (Hfit : index_sized (len args)) by fits.
  assert (Hi : (1 < Z.to_nat (reads args))%nat) by (cbn; lia).
  split; [exact Hfit | split; [exact Hi|]].
  exact (proj1 (name_line_is_at_and_twelve_letters args t 1%nat Hfit Hi)).
Defined.

(** *** Sequences *)

(** C3. With [len = L >= 0], the sequence line of every record has exactly
    [L] characters, all of them among A, T, G and C (records are printed
    when [L] fits the index type). *)
Theorem sequence_line_has_len_bases (args : Namespace) (t : Tape) (i : nat) :
  0 <= len args <= sys_maxsize ->
  (i < Z.to_nat (reads args))%nat ->
  Z.of_nat (String.length (record_line args t i 1)) = len args
  /\ all_chars is_base (record_line args t i 1) = true.
Proof.
  intros HL Hi. rewrite record_line_spec by (fits || lia).
  cbn [nth record_at].
  rewrite seq_at_chars, length_of_list, length_map, length_seq.
  split; [lia|].
  rewrite all_chars_of_list. apply forallb_map_true.
  intros k. now apply base_char_cases.
Qed.

Lemma sequence_line_has_len_bases_witness :
  let args := mkNamespace 2 4 in
  let t : Tape := fun k => Z.of_nat k * 7 in
  0 <= len args <= sys_maxsize /\ (1 < Z.to_nat (reads args))%nat
  /\ Z.of_nat (String.length (record_line args t 1 1)) = len args
  /\ all_chars is_base (record_line args t 1 1) = true.
Proof.
  intros args t.
  assert (HL : 0 <= len args <= sys_maxsize) by fits.
  assert (Hi : (1 < Z.to_nat (reads args))%nat) by (cbn; lia).
  split; [exact HL | split; [exact Hi|]].
  exact (sequence_line_has_len_bases args t 1%nat HL Hi).
Defined.

(** *** Quality *)

(** C4. With [len = L >= 0], the quality line of every record is [L] times
    the character E; it is the same line in every record of the run, and in
    every record of any run with the same [len] (records are printed when
    [L] fits the index type). *)
Theorem quality_line_is_len_E (args : Namespace) (t : Tape) (i : nat) :
  0 <= len args <= sys_maxsize ->
  (i < Z.to_nat (reads args))%nat ->
  record_line args t i 3 = repeated "E" (Z.to_nat (len args))
  /\ Z.of_nat (String.length (record_line args t i 3)) = len args
  /\ (forall j, (j < Z.to_nat (reads args))%nat ->
        record_line args t j 3 = record_line args t i 3)
  /\ (forall args' t' j,
        len args' = len args -> (j < Z.to_nat (reads args'))%nat ->
        record_line args' t' j 3 = record_line args t i 3).
Proof.
  intros HL Hi. rewrite record_line_spec by (fits || lia).
  cbn [nth record_at].
  split; [reflexivity|]. split.
  - unfold repeated. rewrite length_of_list, repeat_length. lia.
  - split.
    + intros j Hj. rewrite record_line_spec by (fits || lia). reflexivity.
    + intros args' t' j Hlen Hj.
      rewrite record_line_spec by (rewrite ?Hlen; fits || lia).
      cbn [nth record_at]. now rewrite Hlen.
Qed.

Lemma quality_line_is_len_E_witness :
  let args := mkNamespace 2 4 in
  let t : Tape := fun k => Z.of_nat k * 7 in
  0 <= len args <= sys_maxsize /\ (1 < Z.to_nat (reads args))%nat
  /\ record_line args t 1 3 = "EEEE".
Proof.
  intros args t.
  assert (HL : 0 <= len args <= sys_maxsize) by fits.
  assert (Hi : (1 < Z.to_nat (reads args))%nat) by (cbn; lia).
  split; [exact HL | split; [exact Hi|]].
  exact (proj1 (quality_line_is_len_E args t 1%nat HL Hi)).
Defined.

(** *** Records *)

(** C5. Every iteration prints four lines, each ended by a line break: the
    name, the sequence, [+] and the quality string, in this order. In the
    output, record [i] is these four lines, and its third line is [+]
    (the loop runs when [len] fits the index type). *)
Theorem record_is_name_sequence_plus_quality
    (args : Namespace) (t : Tape) (i : nat) :
  index_sized (len args) ->
  (i < Z.to_nat (reads args))%nat ->
  (forall qual w, exists name sq,
      matches_name name = true /\ no_newline sq = true
      /\ emit_read args qual w
         = (Ok tt,
            emit (name ++ nl ++ sq ++ nl ++ "+" ++ nl ++ qual ++ nl)
                 (advance (12 + Z.to_nat (len args)) w)))
  /\ map (record_line args t i) [0; 1; 2; 3]%nat
     = [name_at t (i * (12 + Z.to_nat (len args)));
        seq_at t (i * (12 + Z.to_nat (len args)) + 12) (Z.to_nat (len args));
        "+";
        repeated "E" (Z.to_nat (len args))]
  /\ record_line args t i 2 = "+"
  /\ output args t = unlines (lines (output args t)).
Proof.
  intros Hfit Hi. split; [|split; [|split]].
  - intros qual w.
    exists (name_at (tape w) (drawn w)),
           (seq_at (tape w) (drawn w + 12) (Z.to_nat (len args))).
    split; [apply name_at_matches | split; [apply seq_at_no_newline|]].
    rewrite emit_read_spec. cbn [unlines].
    now rewrite append_nil_r.
  - cbn [map]. now rewrite !record_line_spec by (exact Hfit || lia).
  - now rewrite record_line_spec by (exact Hfit || lia).
  - now rewrite lines_output, output_spec.
Qed.

Lemma record_is_name_sequence_plus_quality_witness :
  let args := mkNamespace 2 4 in
  let t : Tape := fun k => Z.of_nat k * 7 in
  index_sized (len args) /\ (1 < Z.to_nat (reads args))%nat
  /\ record_line args t 1 2 = "+".
Proof.
  intros args t.
  assert (Hfit : index_sized (len args)) by fits.
  assert (Hi : (1 < Z.to_nat (reads args))%nat) by (cbn; lia).
  split; [exact Hfit | split; [exact Hi|]].
  exact (proj1 (proj2 (proj2
           (record_is_name_sequence_plus_quality args t 1%nat Hfit Hi)))).
Defined.

(** ** Degenerate arguments *)

Lemma main_parsed (int : string -> option Z) (host : Host)
      (cl : list argument) (args : Namespace) (t : Tape) :
  parse_args int cl = Parsed args ->
  index_sized (len args) ->
  main int host cl t = mkOutcome 0 (output args t) "".
Proof.
  intros H Hfit. unfold main, output, run.
  rewrite H, generate_spec by exact Hfit. reflexivity.
Qed.

(** Where line 19 raises, the run ends with status 1 and the report of the
    exception, and has printed nothing. *)
Lemma main_overflow (int : string -> option Z) (host : Host)
      (cl : list argument) (args : Namespace) (t : Tape) :
  parse_args int cl = Parsed args ->
  ~ index_sized (len args) ->
  main int host cl t = mkOutcome 1 "" (traceback host OverflowError).
Proof.
  intros H Hfit. unfold main.
  rewrite H, generate_overflow by exact Hfit. reflexivity.
Qed.




(** With [reads = 1] and [len = -2^63 - 1], line 19 raises: the run prints
    no record, and no name line. *)
Lemma len_below_the_index_range_raises :
  let args := mkNamespace 1 (- sys_maxsize - 2) in
  let t : Tape := fun _ => 0 in
  len args <= 0 /\ (0 < Z.to_nat (reads args))%nat
  /\ run args t = (Raise OverflowError, initial t)
  /\ lines (output args t) = []
  /\ matches_name (record_line args t 0 0) = false.
Proof.
  intros args t.
  assert (Hfit : ~ index_sized (len args)) by fits.
  split; [fits | split; [cbn; lia | split; [|split]]].
  - now apply generate_overflow.
  - now rewrite output_overflow.
  - now rewrite record_line_overflow.
Qed.

(** C8, amended. With [-2^63 <= len <= 0] the generator still runs to
    completion, and every record is a name line of the usual form, an empty
    sequence line, the [+] line and an empty quality line. *)
Theorem nonpositive_len_gives_empty_lines
    (args : Namespace) (t : Tape) (i : nat) :
  - sys_maxsize - 1 <= len args <= 0 ->
  (i < Z.to_nat (reads args))%nat ->
  fst (run args t) = Ok tt
  /\ map (record_line args t i) [0; 1; 2; 3]%nat
     = [name_at t (i * 12); ""; "+"; ""]
  /\ matches_name (record_line args t i 0) = true.
Proof.
  intros HL Hi.
  assert (Hfit : index_sized (len args)) by fits.
  assert (H0 : Z.to_nat (len args) = 0%nat) by lia.
  split; [|split].
  - unfold run. now rewrite generate_spec.
  - cbn [map]. rewrite !record_line_spec by (exact Hfit || lia). rewrite H0.
    cbn [nth record_at]. now rewrite Nat.add_0_r.
  - rewrite record_line_spec by (exact Hfit || lia). apply name_at_matches.
Qed.

Lemma nonpositive_len_gives_empty_lines_witness :
  let args := mkNamespace 2 (-3) in
  let t : Tape := fun k => Z.of_nat k * 7 in
  - sys_maxsize - 1 <= len args <= 0 /\ (1 < Z.to_nat (reads args))%nat
  /\ map (record_line args t 1) [0; 1; 2; 3]%nat
     = [name_at t 12; ""; "+"; ""].
Proof.
  intros args t.
  assert (HL : - sys_maxsize - 1 <= len args <= 0) by fits.
  assert (Hi : (1 < Z.to_nat (reads args))%nat) by (cbn; lia).
  split; [exact HL | split; [exact Hi|]].
  exact (proj1 (proj2 (nonpositive_len_gives_empty_lines args t 1%nat HL Hi))).
Defined.

(** ** The precomputed quality string *)





(** ** Determinism *)

Lemma in_seq_bounds (k p n : nat) : In k (seq p n) -> (p <= k < p + n)%nat.
Proof. intros H. apply in_seq in H. lia. Qed.

Lemma record_at_ext (t1 t2 : Tape) (n p : nat) :
  (forall k, (p <= k < p + (12 + n))%nat -> t1 k = t2 k) ->
  record_at t1 n p = record_at t2 n p.
Proof.
  intros H.
  assert (Hname : name_at t1 p = name_at t2 p).
  { unfold name_at. do 2 f_equal.
    apply map_ext_in. intros k Hk. apply in_seq_bounds in Hk.
    now rewrite H by lia. }
  assert (Hseq : seq_at t1 (p + 12) n = seq_at t2 (p + 12) n).
  { unfold seq_at. f_equal.
    apply map_ext_in. intros k Hk. apply in_seq_bounds in Hk.
    now rewrite H by lia. }
  unfold record_at. now rewrite Hname, Hseq.
Qed.

Lemma records_from_ext (t1 t2 : Tape) (n count p : nat) :
  (forall k, (p <= k < p + count * (12 + n))%nat -> t1 k = t2 k) ->
  records_from t1 n p count = records_from t2 n p count.
Proof.
  revert p. induction count as [|count IH]; intros p H; [reflexivity|].
  rewrite !records_from_S. f_equal.
  - apply record_at_ext. intros k Hk. apply H. lia.
  - apply IH. intros k Hk. apply H. lia.
Qed.

(** C10. The output is a function of [reads], [len] and the draws: two runs
    with the same arguments whose tapes agree on the [reads * (12 + len)]
    entries that are drawn end alike and print the same text, character for
    character; and so does the whole program on the same command line. *)
Theorem same_arguments_same_draws_same_output
    (args : Namespace) (t1 t2 : Tape) :
  (forall k : nat,
      (k < Z.to_nat (reads args) * (12 + Z.to_nat (len args)))%nat ->
      t1 k = t2 k) ->
  fst (run args t1) = fst (run args t2)
  /\ output args t1 = output args t2
  /\ (forall int host cl,
        parse_args int cl = Parsed args ->
        main int host cl t1 = main int host cl t2).
Proof.
  intros H.
  destruct (index_sized_dec (len args)) as [Hfit|Hfit].
  - assert (Hout : output args t1 = output args t2).
    { rewrite !output_spec by exact Hfit. f_equal. apply records_from_ext.
      intros k Hk. apply H. lia. }
    split; [|split].
    + unfold run. now rewrite !generate_spec.
    + exact Hout.
    + intros int host cl Hp.
      now rewrite !(main_parsed _ _ _ _ _ Hp Hfit), Hout.
  - split; [|split].
    + unfold run. now rewrite !generate_overflow.
    + now rewrite !output_overflow.
    + intros int host cl Hp. now rewrite !(main_overflow _ _ _ _ _ Hp Hfit).
Qed.

Lemma same_arguments_same_draws_same_output_witness :
  let args := mkNamespace 2 4 in
  let t1 : Tape := fun k => Z.of_nat k * 7 in
  let t2 : Tape := fun k => if (k <? 32)%nat then Z.of_nat k * 7 else 1 in
  output args t1 = output args t2.
Proof.
  intros args t1 t2.
  refine (proj1 (proj2 (same_arguments_same_draws_same_output args t1 t2 _))).
  intros k Hk. unfold t1, t2.
  change (Z.to_nat (reads args) * (12 + Z.to_nat (len args)))%nat
    with 32%nat in Hk.
  apply Nat.ltb_lt in Hk. now rewrite Hk.
Defined.

(** ** Failures *)






Lemma prefix_append (a b : string) : prefix a (a ++ b) = true.
Proof.
  induction a as [|c a IH]; [now destruct b|].
  cbn [append prefix]. now destruct (ascii_dec c c).
Qed.


Lemma help_met_first_cons (int : string -> option Z) (a : argument)
      (cl : list argument) :
  help_met_first int (a :: cl)
  <-> a = HelpFlag \/ (stops_parser int a = false /\ help_met_first int cl).
Proof.
  unfold help_met_first. split.
  - intros (before & after & Hcl & Hstop).
    destruct before as [|b before]; cbn [app] in Hcl; injection Hcl as -> ->.
    + now left.
    + cbn [existsb] in Hstop. apply orb_false_iff in Hstop as [Hb Hrest].
      right. split; [exact Hb|]. now exists before, after.
  - intros [-> | (Ha & before & after & -> & Hstop)].
    + now exists [], cl.
    + exists (a :: before), after. split; [reflexivity|].
      cbn [existsb]. now rewrite Ha, Hstop.
Qed.

(** The parser ends on the help text exactly when a help option is met
    before any error. *)
Lemma parse_known_help (int : string -> option Z) (cl : list argument) :
  forall r l extras,
    parse_known int cl r l extras = ExitHelp <-> help_met_first int cl.
Proof.
  induction cl as [|a cl IH]; intros r l extras.
  - cbn [parse_known]. split.
    + destruct r as [n|]; [destruct extras|]; discriminate.
    + intros (before & after & Hcl & _). now destruct before.
  - rewrite help_met_first_cons.
    destruct a as [|d [v|]|s|c]; cbn [parse_known stops_parser].
    + split; [now left | reflexivity].
    + destruct (int v) as [n|].
      * destruct d; rewrite IH; split;
          [now right | intros [H|[_ H]]; [discriminate | exact H]
          |now right | intros [H|[_ H]]; [discriminate | exact H]].
      * split; [discriminate | intros [H|[H _]]; discriminate].
    + split; [discriminate | intros [H|[H _]]; discriminate].
    + rewrite IH. split;
        [now right | intros [H|[_ H]]; [discriminate | exact H]].
    + split; [discriminate | intros [H|[H _]]; discriminate].
Qed.




(** * Further properties of the generator *)

(** ** Blocks of the tape *)

Lemma map_seq_shift {A} (f : nat -> A) (p n : nat) :
  map f (seq p n) = map (fun k => f (p + k)%nat) (seq 0 n).
Proof.
  revert p. induction n as [|n IH]; intros p; [reflexivity|].
  cbn [seq map]. rewrite Nat.add_0_r. f_equal.
  rewrite IH, <- seq_shift, map_map.
  apply map_ext. intros k. f_equal. lia.
Qed.

(** A record is read off the [12 + n] entries that start at its position. *)
Lemma record_at_shift (t1 t2 : Tape) (n p q : nat) :
  (forall k, (k < 12 + n)%nat -> t1 (p + k)%nat = t2 (q + k)%nat) ->
  record_at t1 n p = record_at t2 n q.
Proof.
  intros H.
  assert (Hname : name_at t1 p = name_at t2 q).
  { unfold name_at. do 2 f_equal.
    rewrite (map_seq_shift _ p), (map_seq_shift _ q).
    apply map_ext_in. intros k Hk. apply in_seq_bounds in Hk.
    now rewrite H by lia. }
  assert (Hseq : seq_at t1 (p + 12) n = seq_at t2 (q + 12) n).
  { unfold seq_at. f_equal.
    rewrite (map_seq_shift _ (p + 12)), (map_seq_shift _ (q + 12)).
    apply map_ext_in. intros k Hk. apply in_seq_bounds in Hk.
    rewrite <- !Nat.add_assoc. now rewrite H by lia. }
  unfold record_at. now rewrite Hname, Hseq.
Qed.

Lemma records_from_shift (t1 t2 : Tape) (n count p q : nat) :
  (forall k, (k < count * (12 + n))%nat -> t1 (p + k)%nat = t2 (q + k)%nat) ->
  records_from t1 n p count = records_from t2 n q count.
Proof.
  revert p q. induction count as [|count IH]; intros p q H; [reflexivity|].
  rewrite !records_from_S. f_equal.
  - apply record_at_shift. intros k Hk. apply H. lia.
  - apply IH. intros k Hk. rewrite <- !Nat.add_assoc. apply H. lia.
Qed.

Lemma records_from_add (t : Tape) (n p a b : nat) :
  records_from t n p (a + b)
  = records_from t n p a ++ records_from t n (p + a * (12 + n)) b.
Proof.
  revert p. induction a as [|a IH]; intros p.
  - cbn [Nat.add Nat.mul records_from seq flat_map app].
    now rewrite Nat.add_0_r.
  - cbn [Nat.add]. rewrite !records_from_S, IH, <- app_assoc.
    do 3 f_equal. lia.
Qed.

(** ** Draws and streams *)



Lemma prefix_refl (a : string) : prefix a a = true.
Proof. rewrite <- (append_nil_r a) at 2. apply prefix_append. Qed.

(** X2. The generator never writes to standard error and never takes back
    what is already on standard output: it appends to it what a fresh run
    prints on the part of the tape that is not yet drawn. *)
Theorem generate_only_appends_to_stdout (args : Namespace) (w : World) :
  stderr (snd (generate args w)) = stderr w
  /\ prefix (stdout w) (stdout (snd (generate args w))) = true
  /\ stdout (snd (generate args w))
     = (stdout w ++ output args (fun k => tape w (drawn w + k)%nat))%string.
Proof.
  destruct (index_sized_dec (len args)) as [Hfit|Hfit].
  - rewrite generate_spec by exact Hfit. cbn [snd emit advance stdout stderr].
    split; [reflexivity | split; [apply prefix_append|]].
    rewrite output_spec by exact Hfit. do 2 f_equal.
    apply records_from_shift. intros k _. reflexivity.
  - rewrite generate_overflow, output_overflow by exact Hfit. cbn [snd].
    now rewrite prefix_refl, append_nil_r.
Qed.

(** X3. [randomReadName] cannot fail: from any world it returns twelve
    lowercase letters, makes exactly twelve draws and prints nothing. *)
Theorem randomReadName_returns_twelve_letters (w : World) :
  exists name : string,
    randomReadName w = (Ok name, advance 12 w)
    /\ String.length name = 12%nat
    /\ all_chars is_lower name = true
    /\ drawn (snd (randomReadName w)) = (12 + drawn w)%nat
    /\ stdout (snd (randomReadName w)) = stdout w
    /\ stderr (snd (randomReadName w)) = stderr w.
Proof.
  rewrite randomReadName_spec. eexists. split; [reflexivity|].
  unfold letter. rewrite (join_singletons (fun k => lower_char (tape w k))).
  rewrite length_of_list, length_map, length_seq, all_chars_of_list.
  repeat split.
  apply forallb_map_true. intros k. now apply lower_char_cases.
Qed.

(** ** The shape and the size of the output *)



Lemma length_seq_at (t : Tape) (p n : nat) : String.length (seq_at t p n) = n.
Proof. now rewrite seq_at_chars, length_of_list, length_map, length_seq. Qed.

Lemma length_repeated (c : ascii) (n : nat) : String.length (repeated c n) = n.
Proof. unfold repeated. now rewrite length_of_list, repeat_length. Qed.


(** X4. In every record the sequence line and the quality line have the
    same length, [max(len, 0)], whatever [len] is: the records are
    well-formed FASTQ also for a zero or negative [len] (records are
    printed when [len] fits the index type). *)
Theorem sequence_and_quality_have_the_same_length
    (args : Namespace) (t : Tape) (i : nat) :
  index_sized (len args) ->
  (i < Z.to_nat (reads args))%nat ->
  String.length (record_line args t i 1) = String.length (record_line args t i 3)
  /\ Z.of_nat (String.length (record_line args t i 1)) = Z.max 0 (len args).
Proof.
  intros Hfit Hi. rewrite !record_line_spec by (exact Hfit || lia).
  cbn [nth record_at].
  rewrite length_seq_at, length_repeated. split; [reflexivity | lia].
Qed.

Lemma sequence_and_quality_have_the_same_length_witness :
  let args := mkNamespace 3 (-2) in
  let t : Tape := fun k => Z.of_nat k * 5 in
  index_sized (len args) /\ (2 < Z.to_nat (reads args))%nat
  /\ String.length (record_line args t 2 1)
     = String.length (record_line args t 2 3).
Proof.
  intros args t.
  assert (Hfit : index_sized (len args)) by fits.
  assert (Hi : (2 < Z.to_nat (reads args))%nat) by (cbn; lia).
  split; [exact Hfit | split; [exact Hi|]].
  exact (proj1 (sequence_and_quality_have_the_same_length
                  args t 2%nat Hfit Hi)).
Defined.



Lemma all_chars_app (p : ascii -> bool) (a b : string) :
  all_chars p (a ++ b) = all_chars p a && all_chars p b.
Proof. unfold all_chars. now rewrite list_ascii_of_string_app, forallb_app. Qed.

Lemma records_chars (t : Tape) (n count p : nat) :
  all_chars is_fastq_char (unlines (records_from t n p count)) = true.
Proof.
  revert p. induction count as [|count IH]; intros p; [reflexivity|].
  rewrite records_from_S, unlines_app, all_chars_app, IH, andb_true_r.
  cbn [record_at unlines]. rewrite !all_chars_app.
  rewrite name_at_chars, seq_at_chars.
  assert (Hname : all_chars is_fastq_char
            (String "@" (string_of_list_ascii
                           (map (fun k => lower_char (t k)) (seq p 12)))) = true).
  { unfold all_chars. cbn [list_ascii_of_string forallb].
    rewrite list_ascii_of_string_of_list_ascii, forallb_map_true;
      [reflexivity|].
    intros k. now apply lower_char_cases. }
  assert (Hseq : all_chars is_fastq_char
            (string_of_list_ascii
               (map (fun k => base_char (t k)) (seq (p + 12) n))) = true).
  { rewrite all_chars_of_list. apply forallb_map_true.
    intros k. now apply base_char_cases. }
  assert (Hqual : all_chars is_fastq_char (repeated "E" n) = true).
  { unfold repeated. rewrite all_chars_of_list.
    clear. induction n as [|n IHn]; [reflexivity | exact IHn]. }
  now rewrite Hname, Hseq, Hqual.
Qed.

(** X6. The output is plain text over a small alphabet: every character of
    it is a line break, [@], [+], [E], a lowercase letter or one of the four
    bases. *)
Theorem output_uses_only_fastq_characters (args : Namespace) (t : Tape) :
  all_chars is_fastq_char (output args t) = true.
Proof.
  destruct (index_sized_dec (len args)) as [Hfit|Hfit].
  - rewrite output_spec by exact Hfit. apply records_chars.
  - now rewrite output_overflow.
Qed.

(** ** Records and the tape *)

(** X7. Asking for [a + b] reads is asking for [a] reads and then for [b]
    reads: the two generations in sequence leave the same world as the
    single one, and the output for [a] reads is the beginning of the output
    for [a + b] reads. *)
Theorem generate_splits_over_reads (a b l : Z) (w : World) :
  0 <= a -> 0 <= b ->
  generate (mkNamespace (a + b) l) w
  = (generate (mkNamespace a l) ;; generate (mkNamespace b l)) w
  /\ prefix (stdout (snd (generate (mkNamespace a l) w)))
            (stdout (snd (generate (mkNamespace (a + b) l) w))) = true.
Proof.
  intros Ha Hb. unfold bind.
  destruct (index_sized_dec l) as [Hfit|Hfit];
    [|rewrite !generate_overflow by exact Hfit; cbn [snd];
      split; [reflexivity | apply prefix_refl]].
  rewrite !generate_spec by exact Hfit.
  cbn [reads len tape drawn emit advance snd].
  rewrite Z2Nat.inj_add, records_from_add, unlines_app by lia.
  rewrite emit_emit, (Nat.add_comm (drawn w)), Nat.mul_add_distr_r.
  split; [reflexivity|].
  unfold emit. cbn [stdout advance]. rewrite <- append_assoc.
  apply prefix_append.
Qed.

Lemma generate_splits_over_reads_witness :
  let w := initial (fun k => Z.of_nat k * 7) in
  0 <= 1 /\ 0 <= 2
  /\ generate (mkNamespace (1 + 2) 4) w
     = (generate (mkNamespace 1 4) ;; generate (mkNamespace 2 4)) w.
Proof.
  intros w.
  assert (Ha : 0 <= 1) by lia. assert (Hb : 0 <= 2) by lia.
  split; [exact Ha | split; [exact Hb|]].
  exact (proj1 (generate_splits_over_reads 1 2 4 w Ha Hb)).
Defined.

(** X8. A record depends only on its own block of [12 + len] draws: when
    block [i] of one tape holds what block [j] of another holds, record [i]
    of the first run is record [j] of the second, line for line. Records do
    not influence each other, and nothing keeps two records, or two names,
    from being equal. *)
Theorem record_depends_only_on_its_block
    (args : Namespace) (t1 t2 : Tape) (i j : nat) :
  (i < Z.to_nat (reads args))%nat ->
  (j < Z.to_nat (reads args))%nat ->
  (forall k, (k < 12 + Z.to_nat (len args))%nat ->
             t1 (i * (12 + Z.to_nat (len args)) + k)%nat
             = t2 (j * (12 + Z.to_nat (len args)) + k)%nat) ->
  map (record_line args t1 i) [0; 1; 2; 3]%nat
  = map (record_line args t2 j) [0; 1; 2; 3]%nat.
Proof.
  intros Hi Hj H. cbn [map].
  destruct (index_sized_dec (len args)) as [Hfit|Hfit].
  - rewrite !record_line_spec by (exact Hfit || lia).
    now rewrite (record_at_shift t1 t2 _ _ _ H).
  - now rewrite !record_line_overflow.
Qed.

Lemma record_depends_only_on_its_block_witness :
  let args := mkNamespace 2 4 in
  let t : Tape := fun _ => 3 in
  (0 < Z.to_nat (reads args))%nat /\ (1 < Z.to_nat (reads args))%nat
  /\ map (record_line args t 0) [0; 1; 2; 3]%nat
     = map (record_line args t 1) [0; 1; 2; 3]%nat.
Proof.
  intros args t.
  assert (Hi : (0 < Z.to_nat (reads args))%nat) by (cbn; lia).
  assert (Hj : (1 < Z.to_nat (reads args))%nat) by (cbn; lia).
  split; [exact Hi | split; [exact Hj|]].
  refine (record_depends_only_on_its_block args t t 0%nat 1%nat Hi Hj _).
  intros k Hk. reflexivity.
Defined.

(** ** Sequences and draws *)

Lemma base_char_base_index (c : ascii) :
  is_base c = true -> base_char (base_index c) = c.
Proof.
  destruct c as [[] [] [] [] [] [] [] []]; intros H;
    try discriminate H; vm_compute; reflexivity.
Qed.

Lemma base_index_base_char (z : Z) :
  0 <= z < 4 -> base_index (base_char z) = z.
Proof.
  intros Hz. unfold base_char. rewrite Z.mod_small by lia.
  rewrite <- (Z2Nat.id z) at 2 by lia.
  assert (Hk : (Z.to_nat z < 4)%nat) by lia.
  revert Hk. generalize (Z.to_nat z) as k. intros k Hk.
  do 4 (destruct k as [|k]; [reflexivity|]). lia.
Qed.

(** The sequence line of the first record, on a tape that starts with the
    twelve draws of the name and the draws [ds]. *)
Lemma sequence_line_of_draws (ns ds : list Z) :
  List.length ns = 12%nat ->
  Z.of_nat (List.length ds) <= sys_maxsize ->
  record_line (mkNamespace 1 (Z.of_nat (List.length ds))) (tape_of (ns ++ ds))
              0 1
  = string_of_list_ascii (map base_char ds).
Proof.
  intros Hns Hmax. rewrite record_line_spec by (fits || (cbn; lia)).
  cbn [len nth record_at]. rewrite Nat2Z.id, Nat.mul_0_l, Nat.add_0_l.
  rewrite seq_at_chars, map_seq_shift. f_equal.
  rewrite <- (map_nth_seq 0 ds) at 2. rewrite map_map.
  apply map_ext. intros k. unfold tape_of.
  rewrite app_nth2 by lia. do 2 f_equal. lia.
Qed.

(** X9. Sequences and draws correspond one to one: after the twelve draws
    of the name, every word over A, T, G, C (of a length that fits the index
    type) is the sequence line for exactly one list of draws of [[0, 4)], as
    long as the word. Every sequence can come out, and bases are as
    independent and as uniform as the draws of [random.randrange] are. *)
Theorem sequences_and_draws_correspond (ns : list Z) (word : string) :
  List.length ns = 12%nat ->
  all_chars is_base word = true ->
  Z.of_nat (String.length word) <= sys_maxsize ->
  exists! ds : list Z,
    List.length ds = String.length word
    /\ Forall (fun d => 0 <= d < 4) ds
    /\ record_line (mkNamespace 1 (Z.of_nat (String.length word)))
                   (tape_of (ns ++ ds)) 0 1
       = word.
Proof.
  intros Hns Hword Hmax.
  unfold all_chars in Hword. rewrite forallb_forall in Hword.
  exists (map base_index (list_ascii_of_string word)).
  assert (Hlen : List.length (map base_index (list_ascii_of_string word))
                 = String.length word)
    by now rewrite length_map, length_list_ascii.
  split.
  - split; [exact Hlen | split].
    + apply Forall_forall. intros d Hd.
      apply in_map_iff in Hd as [c [<- _]]. unfold base_index.
      repeat (destruct (Ascii.eqb c _); [lia|]). lia.
    + rewrite <- Hlen in Hmax |- * at 1.
      rewrite (sequence_line_of_draws _ _ Hns Hmax), map_map.
      rewrite <- (string_of_list_ascii_of_string word) at 2. f_equal.
      transitivity (map (fun c => c) (list_ascii_of_string word));
        [|apply map_id].
      apply map_ext_in. intros c Hc. now apply base_char_base_index, Hword.
  - intros ds (Hds & Hrange & Hline).
    rewrite <- Hds in Hmax, Hline.
    rewrite (sequence_line_of_draws _ _ Hns Hmax) in Hline.
    rewrite <- Hline, list_ascii_of_string_of_list_ascii, map_map.
    transitivity (map (fun d => d) ds); [|apply map_id].
    apply map_ext_in. intros d Hd.
    rewrite Forall_forall in Hrange.
    now apply base_index_base_char, Hrange.
Qed.

Lemma sequences_and_draws_correspond_witness :
  let ns := repeat 0 12 in
  List.length ns = 12%nat /\ all_chars is_base "GATTACA" = true
  /\ Z.of_nat (String.length "GATTACA") <= sys_maxsize
  /\ exists ds : list Z,
       record_line (mkNamespace 1 7) (tape_of (ns ++ ds)) 0 1 = "GATTACA".
Proof.
  intros ns.
  assert (Hns : List.length ns = 12%nat) by reflexivity.
  assert (Hw : all_chars is_base "GATTACA" = true) by reflexivity.
  assert (Hmax : Z.of_nat (String.length "GATTACA") <= sys_maxsize) by fits.
  split; [exact Hns | split; [exact Hw | split; [exact Hmax|]]].
  destruct (sequences_and_draws_correspond ns "GATTACA" Hns Hw Hmax)
    as [ds [(_ & _ & Hline) _]].
  exists ds. exact Hline.
Defined.

(** * Further properties of the command line *)

Lemma gives_len_cons (a : argument) (cl : list argument) :
  gives_len (a :: cl)
  = (match a with Opt Len _ => true | _ => false end) || gives_len cl.
Proof. reflexivity. Qed.

Lemma has_defect_cons (a : argument) (cl : list argument) :
  has_defect (a :: cl)
  = (match a with
     | Stray _ | Malformed _ | Opt _ None => true
     | _ => false
     end) || has_defect cl.
Proof. reflexivity. Qed.

(** Without [-len] on the command line, the length is the one the parser
    starts from. *)
Lemma parse_known_keeps_len (int : string -> option Z) (cl : list argument) :
  forall r l extras args,
    gives_len cl = false ->
    parse_known int cl r l extras = Parsed args ->
    len args = l.
Proof.
  induction cl as [|a cl IH]; intros r l extras args Hlen Hp.
  - cbn [parse_known] in Hp. destruct r as [n|]; [|discriminate].
    destruct extras; [|discriminate]. now injection Hp as <-.
  - rewrite gives_len_cons in Hlen.
    destruct a as [|d [v|]|s|c]; cbn [parse_known] in Hp; try discriminate.
    + destruct (int v) as [n|]; [|discriminate].
      destruct d; [|discriminate]. cbn [orb] in Hlen. eauto.
    + cbn [orb] in Hlen. eauto.
Qed.

(** A command line that is parsed holds no defect and leaves no stray
    argument behind. *)
Lemma parse_known_parsed_clean (int : string -> option Z) (cl : list argument) :
  forall r l extras args,
    parse_known int cl r l extras = Parsed args ->
    extras = [] /\ has_defect cl = false.
Proof.
  induction cl as [|a cl IH]; intros r l extras args Hp.
  - cbn [parse_known] in Hp. destruct r as [n|]; [|discriminate].
    destruct extras; [auto | discriminate].
  - rewrite has_defect_cons.
    destruct a as [|d [v|]|s|c]; cbn [parse_known] in Hp; try discriminate.
    + destruct (int v) as [n|]; [|discriminate].
      destruct d; apply IH in Hp; exact Hp.
    + apply IH in Hp as [Hnil _]. now destruct extras.
Qed.

(** X10. When [-len] is not on the command line and the arguments are
    parsed, the length is 75: every record has a sequence line of 75
    characters and a quality line of 75 times E. *)
Theorem len_defaults_to_75
    (int : string -> option Z) (cl : list argument) (args : Namespace) :
  gives_len cl = false ->
  parse_args int cl = Parsed args ->
  len args = 75
  /\ (forall t i, (i < Z.to_nat (reads args))%nat ->
        String.length (record_line args t i 1) = 75%nat
        /\ record_line args t i 3 = repeated "E" 75).
Proof.
  intros Hlen Hp.
  assert (H75 : len args = 75) by exact (parse_known_keeps_len _ _ _ _ _ _ Hlen Hp).
  assert (Hfit : index_sized (len args)) by (rewrite H75; fits).
  split; [exact H75|].
  intros t i Hi. rewrite !record_line_spec by (exact Hfit || lia).
  cbn [nth record_at].
  now rewrite length_seq_at, H75.
Qed.

Lemma len_defaults_to_75_witness :
  let cl := [Opt Reads (Some "2")] in
  gives_len cl = false
  /\ parse_args read_decimal cl = Parsed (mkNamespace 2 75)
  /\ len (mkNamespace 2 75) = 75.
Proof.
  intros cl.
  assert (Hlen : gives_len cl = false) by reflexivity.
  assert (Hp : parse_args read_decimal cl = Parsed (mkNamespace 2 75))
    by reflexivity.
  split; [exact Hlen | split; [exact Hp|]].
  exact (proj1 (len_defaults_to_75 read_decimal cl _ Hlen Hp)).
Defined.

(** X11. A command line with an argument that matches no option, an option
    without its argument or an option the parser rejects never yields a
    record, even when [-reads] is given: the run ends in a usage error,
    unless a help option is met before any error, and then it ends on the
    help text. *)
Theorem defective_command_line_yields_no_record
    (int : string -> option Z) (host : Host) (cl : list argument) (t : Tape) :
  has_defect cl = true ->
  (help_met_first int cl /\ main int host cl t = help_exit host)
  \/ (~ help_met_first int cl
      /\ exists e, main int host cl t = usage_error host e).
Proof.
  intros Hdef. unfold main.
  pose proof (parse_known_help int cl None 75 []) as Hhelp.
  fold (parse_args int cl) in Hhelp.
  destruct (parse_args int cl) as [args| |e] eqn:Hp.
  - apply parse_known_parsed_clean in Hp as [_ Hclean]. congruence.
  - left. split; [now apply Hhelp | reflexivity].
  - right. split; [|now exists e].
    intros H. apply Hhelp in H. discriminate.
Qed.

Lemma defective_command_line_yields_no_record_witness :
  let cl := [Opt Reads None; HelpFlag] in
  let t : Tape := fun _ => 0 in
  has_defect cl = true
  /\ ((help_met_first read_decimal cl
       /\ main read_decimal wide_terminal cl t = help_exit wide_terminal)
      \/ (~ help_met_first read_decimal cl
          /\ exists e,
               main read_decimal wide_terminal cl t
               = usage_error wide_terminal e)).
Proof.
  intros cl t.
  assert (Hdef : has_defect cl = true) by reflexivity.
  split; [exact Hdef|].
  exact (defective_command_line_yields_no_record
           read_decimal wide_terminal cl t Hdef).
Defined.

Lemma parse_known_app_option (int : string -> option Z) (cl : list argument)
      (d : dest) (v : string) (n : Z) :
  int v = Some n ->
  forall r l extras args,
    parse_known int cl r l extras = Parsed args ->
    parse_known int (cl ++ [Opt d (Some v)]) r l extras
    = Parsed (match d with
              | Reads => mkNamespace n (len args)
              | Len => mkNamespace (reads args) n
              end).
Proof.
  intros Hv. induction cl as [|a cl IH]; intros r l extras args Hp.
  - cbn [parse_known] in Hp. destruct r as [m|]; [|discriminate].
    destruct extras; [|discriminate]. injection Hp as <-.
    cbn [app parse_known]. rewrite Hv. now destruct d.
  - cbn [app].
    destruct a as [|d' [v'|]|s|c]; cbn [parse_known] in *; try discriminate.
    + destruct (int v') as [m|]; [|discriminate].
      destruct d'; now apply IH.
    + now apply IH.
Qed.

(** X12. An option given again at the end of a command line that is parsed
    replaces the value given before and leaves the other value alone: the
    last [-reads] and the last [-len] count. *)
Theorem last_option_wins
    (int : string -> option Z) (cl : list argument) (args : Namespace)
    (v : string) (n : Z) :
  parse_args int cl = Parsed args ->
  int v = Some n ->
  parse_args int (cl ++ [Opt Reads (Some v)]) = Parsed (mkNamespace n (len args))
  /\ parse_args int (cl ++ [Opt Len (Some v)]) = Parsed (mkNamespace (reads args) n).
Proof.
  intros Hp Hv. unfold parse_args in *. split.
  - exact (parse_known_app_option int cl Reads v n Hv _ _ _ _ Hp).
  - exact (parse_known_app_option int cl Len v n Hv _ _ _ _ Hp).
Qed.

Lemma last_option_wins_witness :
  let cl := [Opt Reads (Some "2"); Opt Len (Some "4")] in
  parse_args read_decimal cl = Parsed (mkNamespace 2 4)
  /\ read_decimal "7" = Some 7
  /\ parse_args read_decimal (cl ++ [Opt Reads (Some "7")])
     = Parsed (mkNamespace 7 4).
Proof.
  intros cl.
  assert (Hp : parse_args read_decimal cl = Parsed (mkNamespace 2 4))
    by reflexivity.
  assert (Hv : read_decimal "7" = Some 7) by reflexivity.
  split; [exact Hp | split; [exact Hv|]].
  exact (proj1 (last_option_wins read_decimal cl _ "7" 7 Hp Hv)).
Defined.



(** X14. When [len] does not fit the index type, line 19 raises
    [OverflowError] before the loop, whatever [reads] is: no draw is made
    and nothing is printed, and a run with such arguments ends with status
    1, the report of the exception on standard error and an empty standard
    output. *)
Theorem huge_len_raises_before_the_loop (args : Namespace) :
  ~ index_sized (len args) ->
  (forall w, generate args w = (Raise OverflowError, w))
  /\ (forall t, output args t = "")
  /\ (forall int host cl t,
        parse_args int cl = Parsed args ->
        main int host cl t = mkOutcome 1 "" (traceback host OverflowError)).
Proof.
  intros Hfit. split; [|split].
  - intros w. now apply generate_overflow.
  - intros t. now apply output_overflow.
  - intros int host cl t Hp. now apply (main_overflow _ _ _ args).
Qed.

Lemma huge_len_raises_before_the_loop_witness :
  let args := mkNamespace 0 (- sys_maxsize - 2) in
  let w := initial (fun _ => 0) in
  ~ index_sized (len args)
  /\ generate args w = (Raise OverflowError, w).
Proof.
  intros args w.
  assert (Hfit : ~ index_sized (len args)) by fits.
  split; [exact Hfit|].
  exact (proj1 (huge_len_raises_before_the_loop args Hfit) w).
Defined.
